(** * Verification of the bulk uploader [upload_script.js]

    The script reads [companies.json], stages one [set] per company into a
    single Firestore write batch, commits the batch once and prints the
    result.  The development below embeds the script in a small state and
    exception monad over an explicit world (remote store, console, wire) and
    proves the properties the specification states about it. *)

From stdpp Require Import base strings gmap list pretty.

Set Warnings "-register-all".

(** ** Data *)

(** The values [JSON.parse] produces.  Numbers keep their literal text: the
    script never computes with them. *)
Inductive json :=
| JNull
| JBool (b : bool)
| JNum (lit : string)
| JStr (s : string)
| JArr (items : list json)
| JObj (fields : gmap string json).

(** What a property read yields: [None] is JavaScript's [undefined]. *)
Abbreviation jsvalue := (option json).

(** A document is addressed by its collection and its id. *)
Abbreviation DocumentReference := (string * string)%type.

(** One staged [set]: the target and the full document to store there. *)
Abbreviation write := (DocumentReference * json)%type.

(** A write batch holds its staged writes in staging order. *)
Abbreviation WriteBatch := (list write).

Inductive error :=
| TypeError (msg : string)
| MalformedRecord (documentPath : jsvalue)
| StoreUnavailable (detail : string)
| CommitRejected (detail : string).

(** How the store answers the one commit of a run. *)
Inductive commit_reply :=
| Applied
| Refused (e : error).

(** What travelled over the network: each commit request with its answer. *)
Inductive request :=
| Commit (writes : WriteBatch) (reply : commit_reply).

Inductive line :=
| Log (text : string)
| Error (label : string) (e : error).

Record world := World {
  firestore : gmap DocumentReference json;
  console : list line;
  wire : list request
}.

(** ** The effect monad: state that survives an exception *)

Inductive result (A : Type) :=
| Ok (a : A)
| Throw (e : error).
Arguments Ok {A} a.
Arguments Throw {A} e.

Definition M (A : Type) : Type := world → result A * world.

#[global] Instance M_mret : MRet M := λ A a w, (Ok a, w).

Definition throw {A} (e : error) : M A := λ w, (Throw e, w).

#[global] Instance M_bind : MBind M := λ A B k m w,
  match m w with
  | (Ok a, w') => k a w'
  | (Throw e, w') => (Throw e, w')
  end.

Definition try_catch {A} (body : M A) (handler : error → M A) : M A :=
  λ w, match body w with
       | (Ok a, w') => (Ok a, w')
       | (Throw e, w') => handler e w'
       end.

(** [forEach] with a callback that updates an accumulator it closes over. *)
Fixpoint forEach {A B} (f : B → A → M B) (acc : B) (xs : list A) : M B :=
  match xs with
  | [] => mret acc
  | x :: xs' => acc' ← f acc x; forEach f acc' xs'
  end.

(** ** The console *)

Definition console_log (text : string) : M unit :=
  λ w, (Ok tt, World (firestore w) (console w ++ [Log text]) (wire w)).

Definition console_error (label : string) (e : error) : M unit :=
  λ w, (Ok tt, World (firestore w) (console w ++ [Error label e]) (wire w)).

(** ** JavaScript property read [company.companyName] *)

Definition companyName (company : json) : M jsvalue :=
  match company with
  | JNull => throw (TypeError "Cannot read properties of null")
  | JObj fields => mret (fields !! "companyName")
  | _ => mret None
  end.

(** ** The store client *)

(** Modelled from the spec: the Firestore client ([firebase-admin]) is an
    external collaborator whose code is not part of the repository.  Deriving
    the document key fails with [MalformedRecord] when the identity is
    missing or empty; the identity is a non-empty string used verbatim as the
    document key. *)
Definition doc (collectionPath : string) (documentPath : jsvalue)
  : M DocumentReference :=
  match documentPath with
  | Some (JStr id) =>
      if decide (id = "") then throw (MalformedRecord documentPath)
      else mret (collectionPath, id)
  | _ => throw (MalformedRecord documentPath)
  end.

(** Modelled from the spec: [batch()] constructs an empty atomic write
    batch. *)
Definition db_batch : WriteBatch := [].

(** Modelled from the spec: [batch.set] stages a full-document overwrite; it
    is purely local to the batch object. *)
Definition batch_set (batch : WriteBatch) (docRef : DocumentReference)
    (data : json) : M WriteBatch :=
  mret (batch ++ [(docRef, data)]).

(** A [set] replaces the whole document under its key. *)
Definition apply_write (σ : gmap DocumentReference json) (op : write)
  : gmap DocumentReference json :=
  <[op.1 := op.2]> σ.

Definition apply_writes (writes : WriteBatch)
    (σ : gmap DocumentReference json) : gmap DocumentReference json :=
  foldl apply_write σ writes.

(** Modelled from the spec: [batch.commit] sends the batch once; the store
    either durably applies every staged write atomically or rejects the
    whole batch.  [reply] is the answer of the store, which the script does
    not control.  The writes of an applied batch take effect in the order
    they were staged, as in Firestore. *)
Definition batch_commit (reply : commit_reply) (batch : WriteBatch) : M unit :=
  λ w,
    let wire' := wire w ++ [Commit batch reply] in
    match reply with
    | Applied =>
        (Ok tt, World (apply_writes batch (firestore w)) (console w) wire')
    | Refused e => (Throw e, World (firestore w) (console w) wire')
    end.

(** ** The script *)

Definition stage (batch : WriteBatch) (company : json) : M WriteBatch :=
  name ← companyName company;
  docRef ← doc "targetCompanies" name;
  batch_set batch docRef company.

Definition uploadCompanies (reply : commit_reply) (companies : list json)
  : M unit :=
  console_log "Starting company upload...";;
  batch ← forEach stage db_batch companies;
  try_catch
    (batch_commit reply batch;;
     console_log ("Successfully uploaded " +:+ pretty (length companies)
                  +:+ " companies to Firestore!"))
    (λ e, console_error "Error uploading companies:" e).

(** The script ends with a bare [uploadCompanies();]: it never sets an exit
    code itself, so the process ends with status 0 when the promise resolves
    and with Node's status 1 for an unhandled rejection. *)
Definition exit_status (completion : result unit) : nat :=
  match completion with
  | Ok _ => 0
  | Throw _ => 1
  end.

(** ** Vocabulary of the specification *)

(** The usable identity of a record: its [companyName] when that is a
    non-empty string. *)
Definition identity (company : json) : option string :=
  match company with
  | JObj fields =>
      match fields !! "companyName" with
      | Some (JStr id) => if decide (id = "") then None else Some id
      | _ => None
      end
  | _ => None
  end.

(** A record object whose [companyName] is missing or is the empty string. *)
Definition missing_or_empty (fields : gmap string json) : Prop :=
  fields !! "companyName" = None ∨ fields !! "companyName" = Some (JStr "").

Definition well_formed (companies : list json) : Prop :=
  Forall (λ c, is_Some (identity c)) companies.

#[global] Instance well_formed_dec (companies : list json) :
  Decision (well_formed companies).
Proof. unfold well_formed. apply _. Defined.

Definition identities (companies : list json) : list string :=
  omap identity companies.

Definition target (id : string) : DocumentReference := ("targetCompanies", id).

(** The keys a run addresses. *)
Definition targeted (companies : list json) : gset DocumentReference :=
  list_to_set (target <$> identities companies).

(** The write the script stages for a record with a usable identity. *)
Definition write_of (company : json) : option write :=
  id ← identity company; Some (target id, company).

Definition staged (companies : list json) : WriteBatch :=
  omap write_of companies.

(** A run succeeds when it runs to the end and its commit is applied. *)
Definition successful (reply : commit_reply) (companies : list json)
    (w : world) : Prop :=
  reply = Applied ∧ (uploadCompanies reply companies w).1 = Ok ().

(** Commits the store applied: the mutation events visible on the network. *)
Definition is_mutation (r : request) : bool :=
  match r with
  | Commit _ Applied => true
  | Commit _ (Refused _) => false
  end.

Definition mutations (reqs : list request) : nat :=
  length (filter is_mutation reqs).

(** The error a record without a usable identity raises while it is staged:
    the property read fails on [null], the client refuses any other path. *)
Definition refusal (company : json) : error :=
  match company with
  | JNull => TypeError "Cannot read properties of null"
  | JObj fields => MalformedRecord (fields !! "companyName")
  | _ => MalformedRecord None
  end.

Definition starting : line := Log "Starting company upload...".

Definition uploaded (n : nat) : line :=
  Log ("Successfully uploaded " +:+ pretty n +:+ " companies to Firestore!").

Definition failed (e : error) : line := Error "Error uploading companies:" e.

(** The reading of the empty-input property under which the run always
    reports success: count 0 is printed, the store is untouched, and either
    no commit goes out or one with nothing in it. *)
Definition empty_upload_succeeds (reply : commit_reply) (w : world) : Prop :=
  let run := uploadCompanies reply [] w in
  console run.2 =
    console w ++ [Log "Starting company upload...";
                  Log "Successfully uploaded 0 companies to Firestore!"] ∧
  firestore run.2 = firestore w ∧
  (wire run.2 = wire w ∨ ∃ r, wire run.2 = wire w ++ [Commit [] r]).

(** The record a successful run leaves under an identity: the last record
    of the input that carries it, if any. *)
Definition latest (id : string) (companies : list json) : option json :=
  last (filter (λ c, identity c = Some id) companies).

(** ** Sample data *)

Definition acme_fields : gmap string json :=
  {[ "companyName" := JStr "Acme"; "role" := JStr "SWE" ]}.
Definition globex_fields : gmap string json :=
  {[ "companyName" := JStr "Globex"; "role" := JStr "PM" ]}.
Definition nameless : gmap string json := {[ "role" := JStr "QA" ]}.
Definition blank : gmap string json :=
  {[ "companyName" := JStr ""; "role" := JStr "QA" ]}.
Definition acme : json := JObj acme_fields.
Definition globex : json := JObj globex_fields.
Definition acme_again : json :=
  JObj {[ "companyName" := JStr "Acme"; "role" := JStr "SRE" ]}.
Definition offline : error := StoreUnavailable "offline".
Definition w0 : world := World ∅ [] [].
Definition w1 : world :=
  World {[ target "Initech" := JObj {[ "companyName" := JStr "Initech" ]};
           target "Acme" := JObj {[ "companyName" := JStr "Acme" ]} ]}
        [Log "earlier output"] [Commit [] Applied].

(** ** The store: applying a batch *)

Section store.
Implicit Types (σ : gmap DocumentReference json) (ops : WriteBatch).
Implicit Types (k : DocumentReference) (d : json).

Lemma apply_writes_snoc ops k d σ :
  apply_writes (ops ++ [(k, d)]) σ = <[k := d]> (apply_writes ops σ).
Proof. unfold apply_writes. by rewrite foldl_app. Qed.

Lemma apply_writes_app ops1 ops2 σ :
  apply_writes (ops1 ++ ops2) σ = apply_writes ops2 (apply_writes ops1 σ).
Proof. apply foldl_app. Qed.

(** Later writes shadow earlier ones, and all of them shadow the store. *)
Lemma apply_writes_union ops σ :
  apply_writes ops σ = list_to_map (reverse ops) ∪ σ.
Proof.
  induction ops as [|[k d] ops IH] using rev_ind.
  - rewrite reverse_nil. simpl. by rewrite (left_id_L ∅ (∪)).
  - rewrite apply_writes_snoc, IH, reverse_app. simpl.
    by rewrite insert_union_l.
Qed.

Lemma apply_writes_frame ops σ k :
  k ∉ ops.*1 → apply_writes ops σ !! k = σ !! k.
Proof.
  intros Hk. induction ops as [|[k' d] ops IH] using rev_ind; [done|].
  rewrite fmap_app, not_elem_of_app in Hk. destruct Hk as [Hops Hk'].
  rewrite apply_writes_snoc, lookup_insert_ne; [by apply IH|].
  intros ->. apply Hk'. by apply list_elem_of_singleton.
Qed.

Lemma apply_writes_last ops1 ops2 k d σ :
  k ∉ ops2.*1 → apply_writes (ops1 ++ (k, d) :: ops2) σ !! k = Some d.
Proof.
  intros Hk. rewrite apply_writes_app. change ((k, d) :: ops2) with ([(k, d)] ++ ops2).
  rewrite apply_writes_app, apply_writes_frame by done.
  apply lookup_insert_eq.
Qed.

Lemma apply_writes_dom ops σ :
  dom (apply_writes ops σ) = list_to_set ops.*1 ∪ dom σ.
Proof.
  rewrite apply_writes_union, dom_union_L, dom_list_to_map_L.
  f_equal. apply set_eq. intros k.
  rewrite !elem_of_list_to_set, fmap_reverse. apply elem_of_reverse.
Qed.

Lemma apply_writes_idemp ops σ :
  apply_writes ops (apply_writes ops σ) = apply_writes ops σ.
Proof.
  rewrite !apply_writes_union, (assoc_L (∪)). f_equal. apply (idemp_L (∪)).
Qed.

(** Whatever a batch leaves under one of its keys is one of its writes. *)
Lemma apply_writes_elem ops σ k :
  k ∈ ops.*1 → ∃ d, (k, d) ∈ ops ∧ apply_writes ops σ !! k = Some d.
Proof.
  induction ops as [|[k' d] ops IH] using rev_ind; [by intros ?%elem_of_nil|].
  rewrite fmap_app, elem_of_app, apply_writes_snoc. intros Hk.
  destruct (decide (k' = k)) as [->|Hne].
  - exists d. rewrite lookup_insert_eq. split; [|done].
    apply elem_of_app. right. by apply list_elem_of_singleton.
  - rewrite lookup_insert_ne by done.
    destruct Hk as [Hk|Hk%list_elem_of_singleton]; [|done].
    destruct (IH Hk) as (d' & ? & ?). exists d'. split; [|done].
    apply elem_of_app. by left.
Qed.
End store.

(** ** What the script stages *)

Section staging.
Implicit Types (batch : WriteBatch) (company : json) (w : world).
Implicit Types (companies : list json).

Lemma stage_eq batch company w :
  stage batch company w =
    match identity company with
    | Some id => (Ok (batch ++ [(target id, company)]), w)
    | None => (Throw (refusal company), w)
    end.
Proof.
  destruct company as [| | | | |fields]; try done.
  unfold stage, identity, refusal; simpl.
  unfold mbind, M_bind, mret, M_mret; simpl.
  destruct (fields !! "companyName") as [[| | |id| |]|]; try done.
  simpl. by destruct (decide (id = "")).
Qed.

Lemma staged_cons_Some company id companies :
  identity company = Some id →
  staged (company :: companies) = (target id, company) :: staged companies.
Proof. intros Hid. unfold staged, write_of. simpl. by rewrite Hid. Qed.

Lemma forEach_stage_ok companies batch w :
  well_formed companies →
  forEach stage batch companies w = (Ok (batch ++ staged companies), w).
Proof.
  intros Hwf. revert batch.
  induction Hwf as [|company companies [id Hid] _ IH]; intros batch.
  - simpl. by rewrite (right_id_L [] (++)).
  - rewrite (staged_cons_Some _ id) by done.
    cbn [forEach]. unfold mbind, M_bind at 1. rewrite stage_eq, Hid, IH.
    by rewrite <-(assoc_L (++)).
Qed.

Lemma forEach_stage_throw companies batch w :
  ¬ well_formed companies →
  ∃ company, company ∈ companies ∧ identity company = None ∧
    forEach stage batch companies w = (Throw (refusal company), w).
Proof.
  revert batch. induction companies as [|c companies IH]; intros batch Hnwf.
  - destruct Hnwf. constructor.
  - cbn [forEach]. unfold mbind, M_bind at 1. rewrite stage_eq.
    destruct (identity c) as [id|] eqn:Hid.
    + destruct (IH (batch ++ [(target id, c)])) as (c' & Hin & Hc' & Heq).
      { intros Hwf. apply Hnwf. constructor; [by rewrite Hid|done]. }
      exists c'. split; [by right|done].
    + exists c. split; [by left|done].
Qed.

Lemma staged_keys companies :
  (staged companies).*1 = target <$> identities companies.
Proof.
  unfold staged, identities, write_of.
  induction companies as [|c companies IH]; [done|]. csimpl.
  destruct (identity c); csimpl; by rewrite ?IH.
Qed.

Lemma staged_app companies1 companies2 :
  staged (companies1 ++ companies2) = staged companies1 ++ staged companies2.
Proof. apply omap_app. Qed.

Lemma staged_well_formed companies :
  well_formed companies →
  Forall2 (λ c op, write_of c = Some op) companies (staged companies).
Proof.
  induction 1 as [|c companies [id Hid] _ IH]; [constructor|].
  rewrite (staged_cons_Some _ id) by done.
  constructor; [|done]. unfold write_of. by rewrite Hid.
Qed.

Lemma staged_elem companies k d :
  (k, d) ∈ staged companies → d ∈ companies ∧ identity d = Some k.2 ∧ k = target k.2.
Proof.
  unfold staged. rewrite list_elem_of_omap. intros (c & Hin & Hw).
  unfold write_of in Hw. destruct (identity c) as [id|] eqn:Hid; [|done].
  simpl in Hw. by simplify_eq.
Qed.

#[global] Instance target_inj : Inj (=) (=) target.
Proof. by intros id1 id2 [= ->]. Qed.

Lemma identity_object company id :
  identity company = Some id →
  ∃ fields, company = JObj fields ∧ fields !! "companyName" = Some (JStr id)
            ∧ id ≠ "".
Proof.
  destruct company as [| | | | |fields]; try done. simpl.
  destruct (fields !! "companyName") as [[| | |id'| |]|] eqn:Hname; try done.
  destruct (decide (id' = "")); [done|]. intros [= <-]. by exists fields.
Qed.

Lemma missing_or_empty_identity fields :
  missing_or_empty fields →
  identity (JObj fields) = None ∧
  refusal (JObj fields) = MalformedRecord (fields !! "companyName").
Proof. intros [H|H]; simpl; by rewrite H. Qed.
End staging.

(** ** The three ways a run can go *)

Section runs.
Implicit Types (companies : list json) (w : world) (reply : commit_reply).

Lemma run_unfold reply companies w :
  uploadCompanies reply companies w =
    match forEach stage db_batch companies
            (World (firestore w) (console w ++ [starting]) (wire w)) with
    | (Ok batch, w1) =>
        try_catch
          (batch_commit reply batch;; console_log
             ("Successfully uploaded " +:+ pretty (length companies)
              +:+ " companies to Firestore!"))
          (λ e, console_error "Error uploading companies:" e) w1
    | (Throw e, w1) => (Throw e, w1)
    end.
Proof. reflexivity. Qed.

Lemma run_aborted reply companies w :
  ¬ well_formed companies →
  ∃ company, company ∈ companies ∧ identity company = None ∧
    uploadCompanies reply companies w =
      (Throw (refusal company),
       World (firestore w) (console w ++ [starting]) (wire w)).
Proof.
  intros Hnwf. rewrite run_unfold.
  edestruct forEach_stage_throw as (c & Hin & Hid & ->); [done|].
  by exists c.
Qed.

Lemma run_applied companies w :
  well_formed companies →
  uploadCompanies Applied companies w =
    (Ok (), World (apply_writes (staged companies) (firestore w))
                  (console w ++ [starting; uploaded (length companies)])
                  (wire w ++ [Commit (staged companies) Applied])).
Proof.
  intros Hwf. rewrite run_unfold, forEach_stage_ok by done.
  unfold try_catch, mbind, M_bind, batch_commit, console_log, uploaded.
  simpl. by rewrite <-(assoc_L (++)).
Qed.

Lemma run_refused e companies w :
  well_formed companies →
  uploadCompanies (Refused e) companies w =
    (Ok (), World (firestore w) (console w ++ [starting; failed e])
                  (wire w ++ [Commit (staged companies) (Refused e)])).
Proof.
  intros Hwf. rewrite run_unfold, forEach_stage_ok by done.
  unfold try_catch, mbind, M_bind, batch_commit, console_error, failed.
  simpl. by rewrite <-(assoc_L (++)).
Qed.

Lemma resolves_iff reply companies w :
  (uploadCompanies reply companies w).1 = Ok () ↔ well_formed companies.
Proof.
  split.
  - intros Hok. destruct (decide (well_formed companies)) as [|Hnwf]; [done|].
    destruct (run_aborted reply companies w Hnwf) as (c & _ & _ & Heq).
    by rewrite Heq in Hok.
  - intros Hwf. destruct reply; [by rewrite run_applied|by rewrite run_refused].
Qed.

Lemma successful_run companies w reply :
  successful reply companies w →
  well_formed companies ∧
  uploadCompanies reply companies w =
    (Ok (), World (apply_writes (staged companies) (firestore w))
                  (console w ++ [starting; uploaded (length companies)])
                  (wire w ++ [Commit (staged companies) Applied])).
Proof.
  intros [-> Hok%resolves_iff]. split; [done|]. by apply run_applied.
Qed.

(** The store after any run: the batch applied, or nothing at all. *)
Lemma run_store reply companies w :
  firestore (uploadCompanies reply companies w).2 =
    firestore w ∨
  reply = Applied ∧ well_formed companies ∧
  firestore (uploadCompanies reply companies w).2 =
    apply_writes (staged companies) (firestore w).
Proof.
  destruct (decide (well_formed companies)) as [Hwf|Hnwf].
  - destruct reply.
    + right. by rewrite run_applied.
    + left. by rewrite run_refused.
  - left. destruct (run_aborted reply companies w Hnwf) as (c & _ & _ & ->).
    done.
Qed.
End runs.

(** ** The script on sample inputs *)

Example scenario_two_companies :
  uploadCompanies Applied [acme; globex] w0 =
    (Ok (),
     World {[ target "Acme" := acme; target "Globex" := globex ]}
           [Log "Starting company upload...";
            Log "Successfully uploaded 2 companies to Firestore!"]
           [Commit [(target "Acme", acme); (target "Globex", globex)] Applied]).
Proof. reflexivity. Qed.

Example scenario_blank_identity :
  uploadCompanies Applied [acme; JObj blank; globex] w0 =
    (Throw (MalformedRecord (Some (JStr ""))),
     World ∅ [Log "Starting company upload..."] []).
Proof. reflexivity. Qed.

Example scenario_null_record :
  uploadCompanies Applied [acme; JNull] w0 =
    (Throw (TypeError "Cannot read properties of null"),
     World ∅ [Log "Starting company upload..."] []).
Proof. reflexivity. Qed.

Example scenario_store_offline :
  uploadCompanies (Refused offline) [acme; globex] w1 =
    (Ok (),
     World (firestore w1)
           [Log "earlier output"; Log "Starting company upload...";
            Error "Error uploading companies:" offline]
           [Commit [] Applied;
            Commit [(target "Acme", acme); (target "Globex", globex)]
                   (Refused offline)]).
Proof. reflexivity. Qed.

(** ** Validation before the network *)

(** C1: a record set with at least one record whose [companyName] is missing
    or empty makes the run fail with [MalformedRecord] before any network
    call: nothing is put on the wire and the store is untouched, whatever
    the other records are and whatever the store would have answered. *)
Theorem malformed_record_aborts_before_commit
    (records : list (gmap string json)) (reply : commit_reply) (w : world) :
  Exists missing_or_empty records →
  let run := uploadCompanies reply (JObj <$> records) w in
  (∃ v, run.1 = Throw (MalformedRecord v)) ∧
  wire run.2 = wire w ∧
  firestore run.2 = firestore w.
Proof.
  intros Hbad run.
  assert (¬ well_formed (JObj <$> records)) as Hnwf.
  { intros Hwf. apply Exists_exists in Hbad as (fields & Hin & Hbad).
    apply missing_or_empty_identity in Hbad as [Hid _].
    eapply Forall_forall in Hwf; [|by apply list_elem_of_fmap_2].
    rewrite Hid in Hwf. by destruct Hwf. }
  destruct (run_aborted reply _ w Hnwf) as (c & Hin & Hid & Hrun).
  subst run. rewrite Hrun. simpl. split; [|done].
  apply list_elem_of_fmap in Hin as (fields & -> & _). by eexists.
Qed.

Lemma malformed_record_aborts_before_commit_witness :
  Exists missing_or_empty [acme_fields; nameless; globex_fields] ∧
  let run := uploadCompanies Applied (JObj <$> [acme_fields; nameless; globex_fields]) w1 in
  (∃ v, run.1 = Throw (MalformedRecord v)) ∧
  wire run.2 = wire w1 ∧
  firestore run.2 = firestore w1.
Proof.
  assert (Exists missing_or_empty [acme_fields; nameless; globex_fields]) as H.
  { apply Exists_cons_tl, Exists_cons_hd. left. reflexivity. }
  split; [exact H|].
  exact (malformed_record_aborts_before_commit _ Applied w1 H).
Defined.

(** ** Atomicity *)

(** C2: when the commit is refused, the store after the run is the store
    before it: no document is created or modified. *)
Theorem refused_commit_leaves_store_unchanged
    (companies : list json) (e : error) (w : world) :
  firestore (uploadCompanies (Refused e) companies w).2 = firestore w.
Proof.
  destruct (run_store (Refused e) companies w) as [Heq|(Hreply & _)];
    [done|discriminate].
Qed.

(** ** Reporting *)

(** C4: a successful run prints the number of records submitted, the length
    of the input, also when several records share an identity. *)
Theorem success_reports_record_count
    (reply : commit_reply) (companies : list json) (w : world) :
  successful reply companies w →
  console (uploadCompanies reply companies w).2 =
    console w ++
      [Log "Starting company upload...";
       Log ("Successfully uploaded " +:+ pretty (length companies)
            +:+ " companies to Firestore!")].
Proof. intros [_ ->]%successful_run. done. Qed.

Lemma success_reports_record_count_witness :
  successful Applied [acme; globex; acme_again] w0 ∧
  console (uploadCompanies Applied [acme; globex; acme_again] w0).2 =
    [Log "Starting company upload...";
     Log "Successfully uploaded 3 companies to Firestore!"] ∧
  size (firestore (uploadCompanies Applied [acme; globex; acme_again] w0).2) = 2.
Proof.
  assert (successful Applied [acme; globex; acme_again] w0) as H.
  { split; reflexivity. }
  split; [exact H|]. split; [|reflexivity].
  exact (success_reports_record_count Applied [acme; globex; acme_again] w0 H).
Defined.

(** ** What a successful run leaves in the store *)

Section completeness.
Implicit Types (companies : list json) (σ : gmap DocumentReference json).

Lemma length_remove_dups_target (ids : list string) :
  length (remove_dups (target <$> ids)) = length (remove_dups ids).
Proof.
  induction ids as [|id ids IH]; [done|]. csimpl.
  destruct (decide_rel (∈) id ids) as [Hin|Hnin];
    destruct (decide_rel (∈) (target id) (target <$> ids)) as [Hin'|Hnin'].
  - done.
  - destruct Hnin'. by apply list_elem_of_fmap_2.
  - destruct Hnin. by apply (list_elem_of_fmap_inj target).
  - simpl. by rewrite IH.
Qed.

Lemma size_targeted companies :
  size (targeted companies) = length (remove_dups (identities companies)).
Proof.
  unfold targeted. rewrite <-length_remove_dups_target.
  rewrite <-(size_list_to_set (C:=gset DocumentReference))
    by apply NoDup_remove_dups.
  f_equal. apply set_eq. intros k.
  by rewrite !elem_of_list_to_set, elem_of_remove_dups.
Qed.

Lemma targeted_staged companies k :
  k ∈ targeted companies ↔ k ∈ (staged companies).*1.
Proof. unfold targeted. by rewrite elem_of_list_to_set, staged_keys. Qed.

(** Every targeted key holds, after the batch, a record of the input with
    that identity. *)
Lemma targeted_document companies σ k :
  k ∈ targeted companies →
  ∃ c, c ∈ companies ∧ identity c = Some k.2 ∧ k = target k.2 ∧
       apply_writes (staged companies) σ !! k = Some c.
Proof.
  intros Hk%targeted_staged.
  destruct (apply_writes_elem _ σ _ Hk) as (d & Hin & Hlook).
  apply staged_elem in Hin as (? & ? & ?). by exists d.
Qed.

(** The record that is last in the input among those of its identity is
    the one the batch leaves in the store. *)
Lemma last_record_stored companies1 c companies2 id σ :
  identity c = Some id →
  id ∉ identities companies2 →
  apply_writes (staged (companies1 ++ c :: companies2)) σ !! target id
    = Some c.
Proof.
  intros Hid Hlast.
  rewrite staged_app, (staged_cons_Some _ id) by done.
  apply apply_writes_last.
  rewrite staged_keys. by rewrite (list_elem_of_fmap_inj target).
Qed.

Lemma size_targeted_documents companies σ :
  size (filter (λ kd, kd.1 ∈ targeted companies)
          (apply_writes (staged companies) σ))
    = length (remove_dups (identities companies)).
Proof.
  rewrite <-size_targeted, <-size_dom. f_equal.
  apply dom_filter_L. intros k. split.
  - intros Hk. destruct (targeted_document companies σ k Hk)
      as (c & _ & _ & _ & Hlook). by exists c.
  - by intros (? & ? & Hk).
Qed.
End completeness.

(** C3: after a successful run the documents under the targeted keys are as
    many as the distinct identities of the input, each of them is a record
    of the input with that identity, and when identities are unique every
    record is found under its own key. *)
Theorem successful_run_is_complete
    (reply : commit_reply) (companies : list json) (w : world) :
  successful reply companies w →
  let σ' := firestore (uploadCompanies reply companies w).2 in
  size (filter (λ kd, kd.1 ∈ targeted companies) σ')
    = length (remove_dups (identities companies)) ∧
  (∀ k, k ∈ targeted companies →
        ∃ c, c ∈ companies ∧ identity c = Some k.2 ∧ σ' !! k = Some c) ∧
  (NoDup (identities companies) →
   ∀ c id, c ∈ companies → identity c = Some id → σ' !! target id = Some c).
Proof.
  intros [Hwf Hrun]%successful_run σ'. subst σ'. rewrite Hrun. simpl.
  split; [apply size_targeted_documents|]. split.
  - intros k Hk.
    destruct (targeted_document companies (firestore w) k Hk)
      as (c & ? & ? & _ & ?). by exists c.
  - intros Hnodup c id Hin Hid.
    apply list_elem_of_split in Hin as (cs1 & cs2 & ->).
    apply last_record_stored; [done|].
    unfold identities in Hnodup. rewrite omap_app in Hnodup. csimpl in Hnodup.
    rewrite Hid in Hnodup. apply NoDup_app in Hnodup as (_ & _ & Hnodup).
    by apply NoDup_cons in Hnodup as [? _].
Qed.

Lemma successful_run_is_complete_witness :
  successful Applied [acme; globex] w1 ∧
  let σ' := firestore (uploadCompanies Applied [acme; globex] w1).2 in
  size (filter (λ kd, kd.1 ∈ targeted [acme; globex]) σ') = 2 ∧
  (∃ c, c ∈ [acme; globex] ∧ identity c = Some "Acme" ∧
        σ' !! target "Acme" = Some c) ∧
  σ' !! target "Globex" = Some globex.
Proof.
  assert (successful Applied [acme; globex] w1) as H.
  { split; reflexivity. }
  destruct (successful_run_is_complete Applied [acme; globex] w1 H)
    as (Hsize & Hsome & Heach).
  split; [exact H|]. split; [exact Hsize|]. split.
  - apply (Hsome (target "Acme")). vm_compute. reflexivity.
  - apply Heach.
    + apply (bool_decide_unpack (NoDup (identities [acme; globex]))).
      vm_compute. exact I.
    + apply list_elem_of_In. right. left. reflexivity.
    + reflexivity.
Defined.

(** ** Idempotence *)

(** C5: once a run has succeeded, running the script again on the same
    record set leaves the store exactly as the first run left it, whether
    the second commit is applied or refused; and a run that succeeds after
    a refused one leaves what a single successful run leaves. *)
Theorem rerun_is_idempotent
    (companies : list json) (w : world) (reply2 : commit_reply) (e : error) :
  let once := (uploadCompanies Applied companies w).2 in
  firestore (uploadCompanies reply2 companies once).2 = firestore once ∧
  firestore (uploadCompanies Applied companies
               (uploadCompanies (Refused e) companies w).2).2
    = firestore once.
Proof.
  intros once. split.
  - destruct (run_store reply2 companies once) as [Heq|(_ & Hwf & Heq)];
      [done|].
    rewrite Heq. subst once. rewrite run_applied by done. simpl.
    apply apply_writes_idemp.
  - subst once. destruct (decide (well_formed companies)) as [Hwf|Hnwf].
    + by rewrite run_refused, !run_applied.
    + destruct (run_aborted (Refused e) companies w Hnwf) as (? & _ & _ & ->).
      destruct (run_aborted Applied companies w Hnwf) as (? & _ & _ & ->).
      simpl.
      by destruct (run_aborted Applied companies
        (World (firestore w) (console w ++ [starting]) (wire w)) Hnwf)
        as (? & _ & _ & ->).
Qed.

(** ** Duplicate identities *)

(** C10: in a successful run the batch carries the records in input order,
    and the document left under an identity is the last record of the input
    with that identity. *)
Theorem duplicate_identity_last_record_wins
    (reply : commit_reply) (companies : list json) (w : world)
    (i : nat) (c : json) (id : string) :
  successful reply companies w →
  companies !! i = Some c →
  identity c = Some id →
  (∀ j c', i < j → companies !! j = Some c' → identity c' ≠ Some id) →
  let w' := (uploadCompanies reply companies w).2 in
  (∃ batch, wire w' = wire w ++ [Commit batch Applied] ∧
            batch.*2 = companies) ∧
  firestore w' !! target id = Some c.
Proof.
  intros [Hwf Hrun]%successful_run Hi Hid Hlast w'. subst w'.
  rewrite Hrun. simpl. split.
  - eexists. split; [done|].
    apply list_eq_Forall2, Forall2_fmap_l, Forall2_flip.
    eapply Forall2_impl; [by apply staged_well_formed|].
    intros c' [k d]. unfold write_of.
    destruct (identity c'); simpl; [|done]. by intros [= _ ->].
  - rewrite <-(take_drop_middle companies i c) by done.
    apply last_record_stored; [done|].
    unfold identities. rewrite list_elem_of_omap. intros (c' & Hin & Hc').
    apply list_elem_of_lookup in Hin as [j Hj]. rewrite lookup_drop in Hj.
    by apply (Hlast (S i + j) c'); [lia| |].
Qed.

Lemma duplicate_identity_last_record_wins_witness :
  successful Applied [acme; globex; acme_again] w1 ∧
  let w' := (uploadCompanies Applied [acme; globex; acme_again] w1).2 in
  (∃ batch, wire w' = wire w1 ++ [Commit batch Applied] ∧
            batch.*2 = [acme; globex; acme_again]) ∧
  firestore w' !! target "Acme" = Some acme_again.
Proof.
  assert (successful Applied [acme; globex; acme_again] w1) as H.
  { split; reflexivity. }
  split; [exact H|].
  apply (duplicate_identity_last_record_wins Applied
           [acme; globex; acme_again] w1 2 acme_again "Acme" H);
    [reflexivity|reflexivity|].
  intros j c' Hj Hc'. destruct j as [|[|[|j]]]; try lia. discriminate Hc'.
Defined.

(** ** The empty record set *)

(** The script has no guard for the empty set: the empty batch is still
    committed, and when the store refuses it the run prints the error, not
    a count. *)
Lemma empty_upload_refused_reports_error :
  ¬ empty_upload_succeeds (Refused offline) w0.
Proof. intros [Hconsole _]. vm_compute in Hconsole. discriminate Hconsole. Qed.

(** C6 (amended): on the empty record set the script stages nothing and
    commits the empty batch once; the store is untouched whatever the
    answer; count 0 is printed when the commit is applied, the error when it
    is refused. *)
Theorem empty_upload_commits_empty_batch (reply : commit_reply) (w : world) :
  let run := uploadCompanies reply [] w in
  run.1 = Ok () ∧
  firestore run.2 = firestore w ∧
  wire run.2 = wire w ++ [Commit [] reply] ∧
  console run.2 =
    console w ++
      [Log "Starting company upload...";
       match reply with
       | Applied => Log "Successfully uploaded 0 companies to Firestore!"
       | Refused e => Error "Error uploading companies:" e
       end].
Proof.
  assert (well_formed []) as Hwf by constructor.
  intros run. subst run. destruct reply as [|e].
  - by rewrite run_applied.
  - by rewrite run_refused.
Qed.

(** ** Frame and mutation events *)

Lemma mutations_applied (reqs : list request) (batch : WriteBatch) :
  mutations (reqs ++ [Commit batch Applied]) = S (mutations reqs).
Proof. unfold mutations. rewrite filter_app, length_app. simpl. lia. Qed.

Lemma mutations_refused (reqs : list request) (batch : WriteBatch) e :
  mutations (reqs ++ [Commit batch (Refused e)]) = mutations reqs.
Proof. unfold mutations. rewrite filter_app, length_app. simpl. lia. Qed.

(** C7: no run creates, modifies or deletes a document whose key is not
    among the targeted ones; a successful run adds exactly one applied
    commit to the wire, any other run adds none. *)
Theorem run_touches_only_targeted_documents
    (reply : commit_reply) (companies : list json) (w : world) :
  let w' := (uploadCompanies reply companies w).2 in
  (∀ k, k ∉ targeted companies → firestore w' !! k = firestore w !! k) ∧
  (successful reply companies w →
   mutations (wire w') = S (mutations (wire w))) ∧
  (¬ successful reply companies w →
   mutations (wire w') = mutations (wire w)).
Proof.
  intros w'. subst w'. split; [|split].
  - intros k Hk.
    destruct (run_store reply companies w) as [->|(_ & _ & ->)]; [done|].
    apply apply_writes_frame. by rewrite <-targeted_staged.
  - intros [_ ->]%successful_run. apply mutations_applied.
  - intros Hfail. destruct (decide (well_formed companies)) as [Hwf|Hnwf].
    + destruct reply as [|e].
      * destruct Hfail. split; [done|]. by apply resolves_iff.
      * rewrite run_refused by done. apply mutations_refused.
    + by destruct (run_aborted reply companies w Hnwf) as (? & _ & _ & ->).
Qed.

Lemma run_touches_only_targeted_documents_witness :
  (firestore (uploadCompanies Applied [acme; globex] w1).2 !! target "Initech"
     = firestore w1 !! target "Initech") ∧
  (mutations (wire (uploadCompanies Applied [acme; globex] w1).2)
     = S (mutations (wire w1))) ∧
  (mutations (wire (uploadCompanies (Refused offline) [acme; globex] w1).2)
     = mutations (wire w1)).
Proof.
  split; [|split].
  - apply (run_touches_only_targeted_documents Applied [acme; globex] w1).
    vm_compute. intros H. discriminate H.
  - apply (run_touches_only_targeted_documents Applied [acme; globex] w1).
    split; reflexivity.
  - apply (run_touches_only_targeted_documents (Refused offline)
             [acme; globex] w1).
    intros [H _]. discriminate H.
Defined.

(** ** A refused commit is swallowed *)

(** C8: when the commit is refused the script catches the error, prints it
    and resolves normally; the process ends with the same exit status as
    after a successful run. *)
Theorem refused_commit_is_swallowed
    (companies : list json) (e : error) (w : world) :
  well_formed companies →
  let run := uploadCompanies (Refused e) companies w in
  (∃ batch, wire run.2 = wire w ++ [Commit batch (Refused e)]) ∧
  run.1 = Ok () ∧
  console run.2 =
    console w ++ [Log "Starting company upload...";
                  Error "Error uploading companies:" e] ∧
  exit_status run.1 = 0 ∧
  exit_status run.1 = exit_status (uploadCompanies Applied companies w).1.
Proof.
  intros Hwf run. subst run. rewrite run_refused, run_applied by done.
  simpl. split; [by eexists|done].
Qed.

Lemma refused_commit_is_swallowed_witness :
  well_formed [acme; globex] ∧
  let run := uploadCompanies (Refused offline) [acme; globex] w1 in
  (∃ batch, wire run.2 = wire w1 ++ [Commit batch (Refused offline)]) ∧
  run.1 = Ok () ∧
  console run.2 =
    console w1 ++ [Log "Starting company upload...";
                   Error "Error uploading companies:" offline] ∧
  exit_status run.1 = 0 ∧
  exit_status run.1 = exit_status (uploadCompanies Applied [acme; globex] w1).1.
Proof.
  assert (well_formed [acme; globex]) as H.
  { unfold well_formed. repeat constructor; by eexists. }
  split; [exact H|].
  exact (refused_commit_is_swallowed [acme; globex] offline w1 H).
Defined.

(** ** The stored payload *)

(** C9: every staged write targets the collection [targetCompanies] under
    the record's [companyName] and carries the record itself, position by
    position; so each document an applied batch leaves under a targeted key
    has that key as its own [companyName] field. *)
Theorem every_write_stores_the_whole_record
    (reply : commit_reply) (companies : list json) (w : world) :
  well_formed companies →
  let w' := (uploadCompanies reply companies w).2 in
  (∃ batch,
     wire w' = wire w ++ [Commit batch reply] ∧
     Forall2 (λ c op, ∃ id fields,
                op = (("targetCompanies", id), c) ∧ c = JObj fields ∧
                fields !! "companyName" = Some (JStr id))
             companies batch) ∧
  (reply = Applied →
   ∀ k, k ∈ targeted companies →
        ∃ fields, firestore w' !! k = Some (JObj fields) ∧
                  k.1 = "targetCompanies" ∧
                  fields !! "companyName" = Some (JStr k.2)).
Proof.
  intros Hwf w'. subst w'. split.
  - exists (staged companies). split.
    + destruct reply; [by rewrite run_applied|by rewrite run_refused].
    + eapply Forall2_impl; [by apply staged_well_formed|].
      intros c op Hop. unfold write_of in Hop.
      destruct (identity c) as [id|] eqn:Hid; [|done].
      apply identity_object in Hid as (fields & -> & Hname & _).
      simpl in Hop. injection Hop as <-. by exists id, fields.
  - intros -> k Hk. rewrite run_applied by done. simpl.
    destruct (targeted_document companies (firestore w) k Hk)
      as (c & _ & Hid & Hkey & Hlook).
    apply identity_object in Hid as (fields & -> & Hname & _).
    exists fields. by rewrite Hkey at 2.
Qed.

Lemma every_write_stores_the_whole_record_witness :
  well_formed [acme; globex] ∧
  let w' := (uploadCompanies Applied [acme; globex] w1).2 in
  (∃ batch,
     wire w' = wire w1 ++ [Commit batch Applied] ∧
     Forall2 (λ c op, ∃ id fields,
                op = (("targetCompanies", id), c) ∧ c = JObj fields ∧
                fields !! "companyName" = Some (JStr id))
             [acme; globex] batch) ∧
  (∃ fields, firestore w' !! target "Globex" = Some (JObj fields) ∧
             (target "Globex").1 = "targetCompanies" ∧
             fields !! "companyName" = Some (JStr "Globex")).
Proof.
  assert (well_formed [acme; globex]) as H.
  { unfold well_formed. repeat constructor; by eexists. }
  destruct (every_write_stores_the_whole_record Applied [acme; globex] w1 H)
    as [Hbatch Hstored].
  split; [exact H|]. split; [exact Hbatch|].
  apply (Hstored eq_refl (target "Globex")). vm_compute. reflexivity.
Defined.

(** * Further properties of the script *)

(** ** Helper facts *)

Section more_staging.
Implicit Types (batch : WriteBatch) (companies good rest : list json).
Implicit Types (w : world).

Lemma forEach_stage_first_unusable good bad rest batch w :
  well_formed good →
  identity bad = None →
  forEach stage batch (good ++ bad :: rest) w = (Throw (refusal bad), w).
Proof.
  intros Hgood Hbad. revert batch.
  induction Hgood as [|c good [id Hid] _ IH]; intros batch.
  - cbn [app forEach]. unfold mbind, M_bind. by rewrite stage_eq, Hbad.
  - cbn [app forEach]. unfold mbind, M_bind at 1. by rewrite stage_eq, Hid, IH.
Qed.

Lemma staged_payloads companies :
  well_formed companies → (staged companies).*2 = companies.
Proof.
  induction 1 as [|c companies [id Hid] _ IH]; [done|].
  rewrite (staged_cons_Some _ id) by done. csimpl. by rewrite IH.
Qed.

Lemma length_identities companies :
  well_formed companies → length (identities companies) = length companies.
Proof.
  unfold identities.
  induction 1 as [|c companies [id Hid] _ IH]; [done|].
  csimpl. rewrite Hid. csimpl. by rewrite IH.
Qed.

Lemma identities_elem companies id :
  id ∈ identities companies ↔ ∃ c, c ∈ companies ∧ identity c = Some id.
Proof. unfold identities. apply list_elem_of_omap. Qed.

(** The last record of an identity splits the input around itself. *)
Lemma latest_Some id companies c :
  latest id companies = Some c →
  ∃ before after, companies = before ++ c :: after ∧
                  identity c = Some id ∧ id ∉ identities after.
Proof.
  unfold latest. induction companies as [|x companies IH] using rev_ind.
  - done.
  - rewrite filter_app. destruct (decide (identity x = Some id)) as [Hx|Hx].
    + rewrite (filter_cons_True _ x) by done. rewrite filter_nil, last_snoc.
      intros [= ->]. exists companies, []. split; [done|]. split; [done|].
      by intros ?%elem_of_nil.
    + rewrite (filter_cons_False _ x) by done.
      rewrite filter_nil, (right_id_L [] (++)).
      intros (before & after & -> & Hc & Hafter)%IH.
      exists before, (after ++ [x]). split; [by rewrite <-(assoc_L (++))|].
      split; [done|]. unfold identities. rewrite omap_app, elem_of_app.
      intros [Hin|Hin]; [done|]. csimpl in Hin.
      destruct (identity x) as [id'|] eqn:Hid'; csimpl in Hin.
      * apply list_elem_of_singleton in Hin. congruence.
      * by apply elem_of_nil in Hin.
Qed.

Lemma latest_None id companies :
  latest id companies = None → id ∉ identities companies.
Proof.
  unfold latest. intros Hnil%last_None (c & Hin & Hid)%identities_elem.
  by apply (filter_nil_not_elem_of _ _ c Hnil).
Qed.
End more_staging.

Section distinct.
Context {A : Type} `{EqDecision A}.
Implicit Types l : list A.

Lemma length_remove_dups_le l : length (remove_dups l) ≤ length l.
Proof.
  induction l as [|x l IH]; [done|]. simpl.
  destruct (decide_rel (∈) x l); simpl; lia.
Qed.

Lemma length_remove_dups_NoDup l :
  length (remove_dups l) = length l ↔ NoDup l.
Proof.
  induction l as [|x l IH]; [split; [constructor|done]|]. simpl.
  pose proof (length_remove_dups_le l).
  destruct (decide_rel (∈) x l) as [Hin|Hnin]; simpl.
  - split; [lia|]. by intros [? _]%NoDup_cons.
  - rewrite NoDup_cons. split.
    + intros [= Hlen]. split; [done|]. by apply IH.
    + intros [_ Hnd]. f_equal. by apply IH.
Qed.
End distinct.

(** ** Which record stops a run *)

(** X1: staging stops at the first record, in input order, without a usable
    identity: the run rejects with that record's error, prints only the
    start line, sends nothing and leaves the store alone; the records after
    it are never looked at. *)
Theorem first_unusable_record_stops_run
    (reply : commit_reply) (good : list json) (bad : json)
    (rest : list json) (w : world) :
  well_formed good →
  identity bad = None →
  uploadCompanies reply (good ++ bad :: rest) w =
    (Throw (refusal bad),
     World (firestore w)
           (console w ++ [Log "Starting company upload..."])
           (wire w)).
Proof.
  intros Hgood Hbad.
  by rewrite run_unfold, forEach_stage_first_unusable.
Qed.

Lemma first_unusable_record_stops_run_witness :
  well_formed [acme] ∧ identity JNull = None ∧
  uploadCompanies Applied ([acme] ++ JNull :: [JObj nameless; globex]) w1 =
    (Throw (TypeError "Cannot read properties of null"),
     World (firestore w1)
           (console w1 ++ [Log "Starting company upload..."])
           (wire w1)).
Proof.
  assert (well_formed [acme]) as Hgood.
  { unfold well_formed. repeat constructor; by eexists. }
  split; [exact Hgood|]. split; [reflexivity|].
  exact (first_unusable_record_stops_run Applied [acme] JNull
           [JObj nameless; globex] w1 Hgood eq_refl).
Defined.

(** ** Exit status *)

(** X2: the exit status of the process depends on the input alone: it is 0
    exactly when every record has a usable identity, whatever the store
    answers to the commit and whatever the store held. *)
Theorem exit_status_depends_on_input_only
    (reply : commit_reply) (companies : list json) (w : world) :
  exit_status (uploadCompanies reply companies w).1 =
    if decide (well_formed companies) then 0 else 1.
Proof.
  destruct (decide (well_formed companies)) as [Hwf|Hnwf].
  - apply (resolves_iff reply companies w) in Hwf. by rewrite Hwf.
  - by destruct (run_aborted reply companies w Hnwf) as (? & _ & _ & ->).
Qed.

(** ** Console and wire *)

(** X3: every run appends to the console the start line and then at most
    one more line: the count after an applied commit, the error after a
    refused one, nothing when staging stopped the run.  Earlier output is
    kept, and no run prints both a count and an error. *)
Theorem console_gains_start_and_one_outcome
    (reply : commit_reply) (companies : list json) (w : world) :
  console (uploadCompanies reply companies w).2 =
    console w ++
      Log "Starting company upload..." ::
      (if decide (well_formed companies) then
         [match reply with
          | Applied =>
              Log ("Successfully uploaded " +:+ pretty (length companies)
                   +:+ " companies to Firestore!")
          | Refused e => Error "Error uploading companies:" e
          end]
       else []).
Proof.
  destruct (decide (well_formed companies)) as [Hwf|Hnwf].
  - destruct reply; [by rewrite run_applied|by rewrite run_refused].
  - by destruct (run_aborted reply companies w Hnwf) as (? & _ & _ & ->).
Qed.

(** X4: a run sends at most one request and keeps the earlier traffic; a
    request that is sent is the one commit, answered by the store, and
    carries every record of the input, in input order, in that single
    batch.  There is no retry and no splitting. *)
Theorem wire_gains_at_most_one_commit
    (reply : commit_reply) (companies : list json) (w : world) :
  ∃ sent,
    wire (uploadCompanies reply companies w).2 = wire w ++ sent ∧
    length sent ≤ 1 ∧
    Forall (λ r, ∃ batch, r = Commit batch reply ∧ batch.*2 = companies) sent.
Proof.
  destruct (decide (well_formed companies)) as [Hwf|Hnwf].
  - exists [Commit (staged companies) reply]. split; [|split; [done|]].
    + destruct reply; [by rewrite run_applied|by rewrite run_refused].
    + repeat constructor. eexists. split; [done|]. by apply staged_payloads.
  - exists []. destruct (run_aborted reply companies w Hnwf)
      as (? & _ & _ & ->). simpl.
    split; [by rewrite (right_id_L [] (++))|]. split; [lia|constructor].
Qed.

(** ** What the store keeps *)

(** X5: no run deletes a document: every key present before a run is
    present after it. *)
Theorem run_never_deletes
    (reply : commit_reply) (companies : list json) (w : world) :
  dom (firestore w) ⊆ dom (firestore (uploadCompanies reply companies w).2).
Proof.
  destruct (run_store reply companies w) as [->|(_ & _ & ->)]; [done|].
  rewrite apply_writes_dom. apply union_subseteq_r.
Qed.

(** X8: after a successful run the document under an identity is the last
    record of the input with that identity, and the document held before
    the run when no record has it. *)
Theorem store_after_successful_run
    (reply : commit_reply) (companies : list json) (w : world) (id : string) :
  successful reply companies w →
  firestore (uploadCompanies reply companies w).2 !! target id =
    match latest id companies with
    | Some c => Some c
    | None => firestore w !! target id
    end.
Proof.
  intros [_ ->]%successful_run. simpl.
  destruct (latest id companies) as [c|] eqn:Hlatest.
  - apply latest_Some in Hlatest as (before & after & -> & Hid & Hafter).
    by apply last_record_stored.
  - apply latest_None in Hlatest. apply apply_writes_frame.
    rewrite staged_keys. by rewrite (list_elem_of_fmap_inj target).
Qed.

Lemma store_after_successful_run_witness :
  successful Applied [acme; globex; acme_again] w1 ∧
  firestore (uploadCompanies Applied [acme; globex; acme_again] w1).2
    !! target "Acme" = Some acme_again ∧
  firestore (uploadCompanies Applied [acme; globex; acme_again] w1).2
    !! target "Initech" = firestore w1 !! target "Initech".
Proof.
  assert (successful Applied [acme; globex; acme_again] w1) as H.
  { split; reflexivity. }
  split; [exact H|]. split.
  - exact (store_after_successful_run Applied [acme; globex; acme_again]
             w1 "Acme" H).
  - exact (store_after_successful_run Applied [acme; globex; acme_again]
             w1 "Initech" H).
Defined.

(** ** Order and composition *)

(** X6: when the identities of the input are pairwise distinct, the order of
    the records does not matter: a run on any rearrangement of the input
    leaves the same store. *)
Theorem record_order_irrelevant_without_duplicates
    (companies companies' : list json) (w : world) :
  companies ≡ₚ companies' →
  NoDup (identities companies) →
  firestore (uploadCompanies Applied companies w).2 =
  firestore (uploadCompanies Applied companies' w).2.
Proof.
  intros Hperm Hnodup.
  destruct (decide (well_formed companies)) as [Hwf|Hnwf].
  - assert (well_formed companies') as Hwf'.
    { unfold well_formed. by rewrite <-Hperm. }
    rewrite !run_applied by done. simpl. rewrite !apply_writes_union.
    f_equal. apply list_to_map_proper.
    + rewrite fmap_reverse, reverse_Permutation, staged_keys.
      by apply (NoDup_fmap_2 target).
    + rewrite !reverse_Permutation. unfold staged. by rewrite Hperm.
  - assert (¬ well_formed companies') as Hnwf'.
    { unfold well_formed. by rewrite <-Hperm. }
    destruct (run_aborted Applied companies w Hnwf) as (? & _ & _ & ->).
    by destruct (run_aborted Applied companies' w Hnwf') as (? & _ & _ & ->).
Qed.

Lemma record_order_irrelevant_without_duplicates_witness :
  [acme; globex] ≡ₚ [globex; acme] ∧
  NoDup (identities [acme; globex]) ∧
  firestore (uploadCompanies Applied [acme; globex] w1).2 =
  firestore (uploadCompanies Applied [globex; acme] w1).2.
Proof.
  assert ([acme; globex] ≡ₚ [globex; acme]) as Hperm by apply perm_swap.
  assert (NoDup (identities [acme; globex])) as Hnodup.
  { apply (bool_decide_unpack (NoDup (identities [acme; globex]))).
    vm_compute. exact I. }
  split; [exact Hperm|]. split; [exact Hnodup|].
  exact (record_order_irrelevant_without_duplicates _ _ w1 Hperm Hnodup).
Defined.

(** X7: uploading a record set in two consecutive successful runs, first a
    front part and then the remainder, leaves the same store as uploading
    the whole set in one successful run. *)
Theorem split_upload_leaves_same_store
    (front back : list json) (w : world) :
  well_formed (front ++ back) →
  firestore (uploadCompanies Applied back
               (uploadCompanies Applied front w).2).2 =
  firestore (uploadCompanies Applied (front ++ back) w).2.
Proof.
  intros Hwf. pose proof Hwf as [Hfront Hback]%Forall_app.
  rewrite !run_applied by done. simpl.
  by rewrite staged_app, apply_writes_app.
Qed.

Lemma split_upload_leaves_same_store_witness :
  well_formed ([acme; globex] ++ [acme_again]) ∧
  firestore (uploadCompanies Applied [acme_again]
               (uploadCompanies Applied [acme; globex] w1).2).2 =
  firestore (uploadCompanies Applied ([acme; globex] ++ [acme_again]) w1).2.
Proof.
  assert (well_formed ([acme; globex] ++ [acme_again])) as H.
  { unfold well_formed. repeat constructor; by eexists. }
  split; [exact H|].
  exact (split_upload_leaves_same_store [acme; globex] [acme_again] w1 H).
Defined.

(** ** The printed count against the documents written *)

(** X9: after a successful run the number of documents under the targeted
    keys never exceeds the count the script prints, and the two agree
    exactly when no two records share an identity. *)
Theorem printed_count_bounds_documents
    (reply : commit_reply) (companies : list json) (w : world) :
  successful reply companies w →
  let documents :=
    size (filter (λ kd, kd.1 ∈ targeted companies)
            (firestore (uploadCompanies reply companies w).2)) in
  documents ≤ length companies ∧
  (documents = length companies ↔ NoDup (identities companies)).
Proof.
  intros [Hwf ->]%successful_run documents. subst documents. simpl.
  rewrite size_targeted_documents, <-(length_identities companies) by done.
  split; [apply length_remove_dups_le|apply length_remove_dups_NoDup].
Qed.

Lemma printed_count_bounds_documents_witness :
  successful Applied [acme; globex; acme_again] w0 ∧
  let documents :=
    size (filter (λ kd, kd.1 ∈ targeted [acme; globex; acme_again])
            (firestore (uploadCompanies Applied
                          [acme; globex; acme_again] w0).2)) in
  documents ≤ 3 ∧
  (documents = 3 ↔ NoDup (identities [acme; globex; acme_again])).
Proof.
  assert (successful Applied [acme; globex; acme_again] w0) as H.
  { split; reflexivity. }
  split; [exact H|].
  exact (printed_count_bounds_documents Applied
           [acme; globex; acme_again] w0 H).
Defined.
